(** * Panchayat election: a shallow embedding of [12-panchayat-election.js]

    The module exports [createElection] (a closure over four private
    containers, with the methods [registerVoter], [castVote], [getResults]
    and [getWinner]), [createVoteValidator], [countVotesInRegions] and
    [tallyPure].

    Modelling conventions.
    - A JavaScript value is a primitive, a function or a reference into a
      heap of objects; object identity is the heap location.
    - Numbers are the mathematical integers together with [NaN]: ages and
      vote counts are integers; the precision and printing limits of
      doubles, infinities and the negative zero are outside the model.
    - Strings are sequences of 8-bit characters.
    - A plain object is its map of own properties; inherited properties
      (the members of [Object.prototype]) are not modelled, so a method call
      such as [o.hasOwnProperty(k)] always reaches the built-in and the key
      [__proto__] is a key like any other.  Arrays are dense lists of
      elements.  Functions are opaque and carry no properties.
    - The containers of the closure are typed by what the code stores in
      them: [votes] maps property keys to numbers, the two [Set]s hold
      values, the [Map] is a list of entries in insertion order.
    - The conversions of the language that may run foreign code or need the
      full numeric grammar ([ToPrimitive] on objects, [StringToNumber]) and
      the result of calling a function value are operations of the host,
      collected in the class [Host]; every definition and theorem is
      parametric in it. *)

From stdpp Require Import gmap strings list fin_maps pretty sorting.

Set Warnings "-clear-no-such-hyp,-register-all".

Open Scope Z_scope.

(** ** Values, objects and the heap *)

Inductive number := Int (z : Z) | NaN.

Inductive prim :=
| PUndefined
| PNull
| PBool (b : bool)
| PNum (n : number)
| PStr (s : string).

Abbreviation loc := nat (only parsing).

Inductive value :=
| VPrim (p : prim)
| VFun (f : nat)
| VRef (l : loc).

Abbreviation VUndefined := (VPrim PUndefined).
Abbreviation VNull := (VPrim PNull).
Abbreviation VBool b := (VPrim (PBool b)).
Abbreviation VNum n := (VPrim (PNum n)).
Abbreviation VInt z := (VPrim (PNum (Int z))).
Abbreviation VStr s := (VPrim (PStr s)).

Inductive object :=
| Obj (props : gmap string value)
| Arr (elems : list value).

Abbreviation heap := (list object).

(** Exceptions: the only one the module can raise is the [TypeError] of a
    property read on [null] or [undefined], or of iterating a value that is
    not iterable. *)
Inductive result (A : Type) :=
| Ok (a : A)
| TypeError.
Arguments Ok {A} a.
Arguments TypeError {A}.

#[global] Instance result_ret : MRet result := fun A a => Ok a.
#[global] Instance result_bind : MBind result := fun A B f m =>
  match m with Ok a => f a | TypeError => TypeError end.

#[global] Instance number_eq_dec : EqDecision number.
Proof. solve_decision. Defined.
#[global] Instance prim_eq_dec : EqDecision prim.
Proof. solve_decision. Defined.
#[global] Instance value_eq_dec : EqDecision value.
Proof. solve_decision. Defined.

#[global] Instance number_countable : Countable number.
Proof.
  refine (inj_countable' (fun n => match n with Int z => Some z | NaN => None end)
                         (fun o => match o with Some z => Int z | None => NaN end) _).
  by intros [].
Defined.

#[global] Instance prim_countable : Countable prim.
Proof.
  refine (inj_countable'
    (fun p => match p with
              | PUndefined => inl (inl true)
              | PNull => inl (inl false)
              | PBool b => inl (inr b)
              | PNum n => inr (inl n)
              | PStr s => inr (inr s)
              end)
    (fun e => match e with
              | inl (inl true) => PUndefined
              | inl (inl false) => PNull
              | inl (inr b) => PBool b
              | inr (inl n) => PNum n
              | inr (inr s) => PStr s
              end) _).
  by intros [].
Defined.

#[global] Instance value_countable : Countable value.
Proof.
  refine (inj_countable'
    (fun v => match v with
              | VPrim p => inl p
              | VFun f => inr (inl f)
              | VRef l => inr (inr l)
              end)
    (fun e => match e with
              | inl p => VPrim p
              | inr (inl f) => VFun f
              | inr (inr l) => VRef l
              end) _).
  by intros [].
Defined.

(** Conversion hints of [ToPrimitive]. *)
Inductive hint := HintDefault | HintNumber | HintString.

(** The host: what the embedding leaves to the JavaScript engine and to the
    caller's code. *)
Class Host := {
  (** [ToPrimitive] of an object or a function (pure, never throwing) *)
  ToPrimitive : hint → heap → value → prim;
  (** the numeric value of a string *)
  StringToNumber : string → number;
  (** the value a call [f(args)] of a function value returns *)
  Call : value → heap → list value → value
}.

(** ** Operators of the language *)

Definition truthy (v : value) : bool :=
  match v with
  | VUndefined | VNull => false
  | VBool b => b
  | VNum (Int z) => negb (z =? 0)
  | VNum NaN => false
  | VStr s => negb (String.eqb s "")
  | VFun _ | VRef _ => true
  end.

Definition typeof (v : value) : string :=
  match v with
  | VUndefined => "undefined"
  | VNull => "object"
  | VBool _ => "boolean"
  | VNum _ => "number"
  | VStr _ => "string"
  | VFun _ => "function"
  | VRef _ => "object"
  end.

Definition num_add (a b : number) : number :=
  match a, b with Int x, Int y => Int (x + y) | _, _ => NaN end.

Definition num_sub (a b : number) : number :=
  match a, b with Int x, Int y => Int (x - y) | _, _ => NaN end.

Definition num_lt (a b : number) : bool :=
  match a, b with Int x, Int y => x <? y | _, _ => false end.

Definition NumberToString (n : number) : string :=
  match n with Int z => pretty z | NaN => "NaN" end.

Definition ToString_prim (p : prim) : string :=
  match p with
  | PUndefined => "undefined"
  | PNull => "null"
  | PBool true => "true"
  | PBool false => "false"
  | PNum n => NumberToString n
  | PStr s => s
  end.

Section Operators.
Context `{Host}.

Definition to_primitive (hi : hint) (h : heap) (v : value) : prim :=
  match v with VPrim p => p | _ => ToPrimitive hi h v end.

Definition ToNumber_prim (p : prim) : number :=
  match p with
  | PUndefined => NaN
  | PNull => Int 0
  | PBool b => Int (if b then 1 else 0)
  | PNum n => n
  | PStr s => StringToNumber s
  end.

Definition ToNumber (h : heap) (v : value) : number :=
  ToNumber_prim (to_primitive HintNumber h v).

Definition ToString (h : heap) (v : value) : string :=
  ToString_prim (to_primitive HintString h v).

(** Property keys are strings (symbols are not modelled). *)
Definition ToPropertyKey (h : heap) (v : value) : string := ToString h v.

(** [a + b] *)
Definition js_add (h : heap) (a b : value) : value :=
  let pa := to_primitive HintDefault h a in
  let pb := to_primitive HintDefault h b in
  match pa, pb with
  | PStr _, _ | _, PStr _ => VStr (ToString_prim pa +:+ ToString_prim pb)
  | _, _ => VNum (num_add (ToNumber_prim pa) (ToNumber_prim pb))
  end.

(** [a - b] *)
Definition js_sub (h : heap) (a b : value) : value :=
  VNum (num_sub (ToNumber h a) (ToNumber h b)).

(** [a < b]: two strings compare by code units, anything else by number,
    and a comparison with [NaN] is false. *)
Definition js_lt (h : heap) (a b : value) : bool :=
  match to_primitive HintNumber h a, to_primitive HintNumber h b with
  | PStr s, PStr t => String.ltb s t
  | pa, pb => num_lt (ToNumber_prim pa) (ToNumber_prim pb)
  end.

(** [a > b] *)
Definition js_gt (h : heap) (a b : value) : bool := js_lt h b a.

(** [a || b] *)
Definition js_or (a b : value) : value := if truthy a then a else b.
End Operators.

(** ** Objects *)

(** The characters of a string, as one-character strings. *)
Fixpoint chars (s : string) : list value :=
  match s with
  | EmptyString => []
  | String c s' => VStr (String c EmptyString) :: chars s'
  end.

(** The index properties ["0"], ["1"], ... of an array. *)
Definition indexed (es : list value) : gmap string value :=
  list_to_map (imap (fun i v => (pretty i, v)) es).

(** Own properties of an object, and those a spread copies. *)
Definition own_props (o : object) : gmap string value :=
  match o with
  | Obj m => m
  | Arr es => <["length" := VInt (Z.of_nat (length es))]> (indexed es)
  end.


(** The object a value denotes when a property is looked up on it: the heap
    object of a reference, the character array of a string. *)
Definition to_object (h : heap) (v : value) : option object :=
  match v with
  | VRef l => h !! l
  | VStr s => Some (Arr (chars s))
  | _ => None
  end.

(** [v.k] and [v[k]] for a value that is neither [null] nor [undefined]
    (the reads the source guards by a truthiness or [typeof] test). *)
Definition read (h : heap) (v : value) (k : string) : value :=
  default VUndefined (o ← to_object h v; own_props o !! k).

(** [v.k] and [v[k]] in general: reading from [null] or [undefined] throws. *)
Definition get (h : heap) (v : value) (k : string) : result value :=
  match v with
  | VUndefined | VNull => TypeError
  | _ => Ok (read h v k)
  end.

(** [v.hasOwnProperty(k)] with [k] already a property key *)
Definition has_own (h : heap) (v : value) (k : string) : bool :=
  bool_decide (is_Some (o ← to_object h v; own_props o !! k)).


(** [Array.isArray(v)] *)
Definition isArray (h : heap) (v : value) : bool :=
  match v with
  | VRef l => match h !! l with Some (Arr _) => true | _ => false end
  | _ => false
  end.

(** The elements a [for (... of v)] loop visits. *)
Definition iterate (h : heap) (v : value) : result (list value) :=
  match v with
  | VRef l => match h !! l with Some (Arr es) => Ok es | _ => TypeError end
  | VStr s => Ok (chars s)
  | _ => TypeError
  end.

(** Allocation of an object literal or of a new array. *)
Definition alloc (h : heap) (o : object) : heap * value :=
  (h ++ [o], VRef (length h)).



(** [a.push(x)] for the array at [l] *)
Definition Array_push (h : heap) (l : loc) (x : value) : heap :=
  match h !! l with
  | Some (Arr es) => <[l := Arr (es ++ [x])]> h
  | _ => h
  end.

(** The elements of an array, for a value [Array.isArray] accepts. *)
Definition array_elems (h : heap) (v : value) : list value :=
  match v with
  | VRef l => match h !! l with Some (Arr es) => es | _ => [] end
  | _ => []
  end.

(** ** [Set] and [Map]

    Both compare keys with SameValueZero, which on the values of the model
    is equality.  A [Set] is used through [has] and [add] only; a [Map] is
    iterated, so it keeps its entries in insertion order, and [set] on a key
    already present replaces the value where the entry stands. *)

Definition Set_has (s : gset value) (v : value) : bool := bool_decide (v ∈ s).
Definition Set_add (s : gset value) (v : value) : gset value := {[v]} ∪ s.

Definition Map_has (m : list (value * value)) (k : value) : bool :=
  bool_decide (k ∈ m.*1).

Fixpoint Map_set (m : list (value * value)) (k v : value) : list (value * value) :=
  match m with
  | [] => [(k, v)]
  | (k', v') :: m' =>
      if decide (k' = k) then (k, v) :: m' else (k', v') :: Map_set m' k v
  end.

(** ** [Array.prototype.sort]

    The sort is stable, [undefined] elements go last, and a comparator
    result that is [NaN] counts as 0.  For a consistent comparator the
    outcome is the one stable arrangement, computed here by insertion. *)

Definition SortCompare (cmp : value → value → number) (x y : value) : number :=
  match x, y with
  | VUndefined, VUndefined => Int 0
  | VUndefined, _ => Int 1
  | _, VUndefined => Int (-1)
  | _, _ => match cmp x y with NaN => Int 0 | n => n end
  end.

(** [x], met before [y], stays before it unless the comparison is positive. *)
Definition stays_before (cmp : value → value → number) (x y : value) : bool :=
  negb (num_lt (Int 0) (SortCompare cmp x y)).

Fixpoint sort_insert (cmp : value → value → number) (x : value) (l : list value)
  : list value :=
  match l with
  | [] => [x]
  | y :: l' => if stays_before cmp x y then x :: l else y :: sort_insert cmp x l'
  end.

Definition Array_sort (cmp : value → value → number) (l : list value) : list value :=
  foldr (sort_insert cmp) [] l.

Definition sort_in_place (h : heap) (l : loc) (cmp : value → value → number) : heap :=
  match h !! l with
  | Some (Arr es) => <[l := Arr (Array_sort cmp es)]> h
  | _ => h
  end.

(** The stable sort by descending integer key, which the statements about
    [getResults] compare [Array_sort] with. *)
Fixpoint insert_desc {A} (key : A → Z) (x : A) (l : list A) : list A :=
  match l with
  | [] => [x]
  | y :: l' => if key y <=? key x then x :: l else y :: insert_desc key x l'
  end.

Definition sort_desc {A} (key : A → Z) (l : list A) : list A :=
  foldr (insert_desc key) [] l.

(** ** The election closure *)

(** The four [const] bindings of [createElection].  [votes] is a plain
    object that only ever receives numbers. *)
Record election := Election {
  votes : gmap string number;
  registeredVoters : gset value;
  votedVoters : gset value;
  candidateMap : list (value * value)
}.

(** What a method call yields: a value, or the result of a call made in
    return position ([return f(args)]). *)
Inductive completion :=
| Return (v : value)
| ReturnCall (f : value) (args : list value).

Section Program.
Context `{Host}.


(** [votes[id]] *)
Definition votes_at (h : heap) (vs : gmap string number) (id : value) : value :=
  match vs !! ToPropertyKey h id with
  | Some n => VNum n
  | None => VUndefined
  end.

(** The [for (const candidate of candidates)] loop of the constructor. *)
Fixpoint createElection_loop (h : heap) (candidates : list value)
    (vs : gmap string number) (cm : list (value * value))
  : result (gmap string number * list (value * value)) :=
  match candidates with
  | [] => Ok (vs, cm)
  | candidate :: rest =>
      id ← get h candidate "id";
      let cm' := Map_set cm id candidate in
      let vs' := <[ToPropertyKey h id := Int 0]> vs in
      createElection_loop h rest vs' cm'
  end.

(** [createElection(candidates)], for the elements of the array passed. *)
Definition createElection (h : heap) (candidates : list value) : result election :=
  '(vs, cm) ← createElection_loop h candidates ∅ [];
  Ok {| votes := vs; registeredVoters := ∅; votedVoters := ∅; candidateMap := cm |}.

Definition registerVoter (h : heap) (st : election) (voter : value)
  : election * bool :=
  if negb (truthy voter) then (st, false)
  else if negb (truthy (read h voter "id")) then (st, false)
  else if negb (truthy (read h voter "name")) then (st, false)
  else if negb (String.eqb (typeof (read h voter "age")) "number") then (st, false)
  else if js_lt h (read h voter "age") (VInt 18) then (st, false)
  else if Set_has (registeredVoters st) (read h voter "id") then (st, false)
  else ({| votes := votes st;
           registeredVoters := Set_add (registeredVoters st) (read h voter "id");
           votedVoters := votedVoters st;
           candidateMap := candidateMap st |}, true).

(** [votes[candidateId]++] *)
Definition increment (h : heap) (vs : gmap string number) (candidateId : value)
  : gmap string number :=
  let key := ToPropertyKey h candidateId in
  let old := match vs !! key with Some n => n | None => NaN end in
  <[key := num_add old (Int 1)]> vs.

Definition castVote (h : heap) (st : election)
    (voterId candidateId onSuccess onError : value)
  : heap * election * completion :=
  if negb (String.eqb (typeof onSuccess) "function")
     || negb (String.eqb (typeof onError) "function")
  then (h, st, Return VNull)
  else if negb (Set_has (registeredVoters st) voterId)
  then (h, st, ReturnCall onError [VStr "Voter not registered"])
  else if Set_has (votedVoters st) voterId
  then (h, st, ReturnCall onError [VStr "Voter already voted"])
  else if negb (Map_has (candidateMap st) candidateId)
  then (h, st, ReturnCall onError [VStr "Invalid candidate"])
  else
    let st' := {| votes := increment h (votes st) candidateId;
                  registeredVoters := registeredVoters st;
                  votedVoters := Set_add (votedVoters st) voterId;
                  candidateMap := candidateMap st |} in
    let '(h', payload) :=
      alloc h (Obj {[ "voterId" := voterId; "candidateId" := candidateId ]}) in
    (h', st', ReturnCall onSuccess [payload]).

(** The [for (const [id, candidate] of candidateMap)] loop of [getResults]:
    one object literal per entry, pushed onto the array at [results]. *)
Fixpoint getResults_loop (h : heap) (vs : gmap string number)
    (entries : list (value * value)) (results : loc) : result heap :=
  match entries with
  | [] => Ok h
  | (id, candidate) :: rest =>
      cid ← get h candidate "id";
      name ← get h candidate "name";
      party ← get h candidate "party";
      let '(h1, entry) :=
        alloc h (Obj {[ "id" := cid; "name" := name; "party" := party;
                        "votes" := votes_at h vs id ]}) in
      getResults_loop (Array_push h1 results entry) vs rest results
  end.

(** [(a, b) => b.votes - a.votes]; [sort] calls it on elements of
    [results], which are objects. *)
Definition by_votes_descending (h : heap) (a b : value) : number :=
  ToNumber h (js_sub h (read h b "votes") (read h a "votes")).

(** [getResults(sortFn)]: [results] is a new array, filled by the loop and
    sorted in place.  The method assigns to no binding of the closure, so it
    yields no election. *)
Definition getResults (h : heap) (st : election) (sortFn : value)
  : result (heap * value) :=
  let results := length h in
  let h0 := h ++ [Arr []] in
  h1 ← getResults_loop h0 (votes st) (candidateMap st) results;
  let cmp :=
    if truthy sortFn && String.eqb (typeof sortFn) "function"
    then fun a b => ToNumber h1 (Call sortFn h1 [a; b])
    else by_votes_descending h1 in
  Ok (sort_in_place h1 results cmp, VRef results).

(** [Object.values(votes).reduce((sum, count) => sum + count, 0)]; the sum
    of numbers does not depend on the order of the values. *)
Definition totalVotes (vs : gmap string number) : number :=
  map_fold (fun _ count sum => num_add sum count) (Int 0) vs.

(** The scan of [getWinner], on the pair [(maxVotes, winner)]. *)
Definition getWinner_step (h : heap) (vs : gmap string number)
    (acc : value * value) (entry : value * value) : value * value :=
  let '(maxVotes, winner) := acc in
  let '(id, candidate) := entry in
  if js_gt h (votes_at h vs id) maxVotes then (votes_at h vs id, candidate)
  else (maxVotes, winner).

Definition getWinner (h : heap) (st : election) : value :=
  if decide (totalVotes (votes st) = Int 0) then VNull
  else snd (foldl (getWinner_step h (votes st)) (VInt (-1), VNull) (candidateMap st)).
End Program.

(** ** Calls on an election *)

(** A call of one of the two mutating methods, with its arguments. *)
Inductive call :=
| CallRegisterVoter (voter : value)
| CallCastVote (voterId candidateId onSuccess onError : value).

Section Runs.
Context `{Host}.

(** The election after one call made in heap [h]. *)
Definition step (st : election) (hc : heap * call) : election :=
  match hc with
  | (h, CallRegisterVoter voter) => fst (registerVoter h st voter)
  | (h, CallCastVote voterId candidateId onSuccess onError) =>
      snd (fst (castVote h st voterId candidateId onSuccess onError))
  end.

(** The election after a sequence of calls.  Each call comes with the heap
    it is made in: between two calls the caller may have changed its own
    objects at will.  A call made from inside a callback is a later call of
    the sequence, since callbacks run in return position. *)
Definition run (st : election) (calls : list (heap * call)) : election :=
  foldl step st calls.

(** A candidate as the data model has it: an object whose [id] is a
    string. *)
Definition has_string_id (h : heap) (candidate : value) : Prop :=
  ∃ s, get h candidate "id" = Ok (VStr s).

(** The states an election over such candidates can be in. *)
Inductive reachable : election → Prop :=
| reachable_create h candidates st :
    Forall (has_string_id h) candidates →
    createElection h candidates = Ok st →
    reachable st
| reachable_step st hc :
    reachable st → reachable (step st hc).
End Runs.

(** ** [createVoteValidator] *)

Section Validator.
Context `{Host}.

(** [{ valid, reason }] *)
Definition verdict (valid : bool) (reason : string) : object :=
  Obj {[ "valid" := VBool valid; "reason" := VStr reason ]}.

(** The [for (const field of rules.requiredFields)] loop: the field whose
    test returns, if any. *)
Fixpoint first_missing (h : heap) (voter : value) (fields : list value)
  : option value :=
  match fields with
  | [] => None
  | field :: rest =>
      if negb (has_own h voter (ToPropertyKey h field)) then Some field
      else first_missing h voter rest
  end.

(** [createVoteValidator(rules)] is the closure [validate]; it is applied
    to the heap of the call and to the voter. *)
Definition createVoteValidator (rules : value) (h : heap) (voter : value)
  : result (heap * value) :=
  if negb (truthy voter) || negb (String.eqb (typeof voter) "object")
  then Ok (alloc h (verdict false "Invalid voter object"))
  else
    requiredFields ← get h rules "requiredFields";
    missing ← (if truthy requiredFields
               then fields ← iterate h requiredFields;
                    Ok (first_missing h voter fields)
               else Ok None);
    match missing with
    | Some field =>
        Ok (alloc h (verdict false ("Missing field: " +:+ ToString h field)))
    | None =>
        minAge ← get h rules "minAge";
        if truthy minAge && js_lt h (read h voter "age") minAge
        then Ok (alloc h (verdict false
                            ("Age must be at least " +:+ ToString h minAge)))
        else Ok (alloc h (verdict true ""))
    end.
End Validator.

(** ** [countVotesInRegions] *)

Section Regions.
Context `{Host}.

(** The recursion follows references through the heap and need not
    terminate (a region may contain itself), so it is bounded by [fuel];
    [None] means the bound was reached. *)
Fixpoint countVotesInRegions (fuel : nat) (h : heap) (regionTree : value)
  : option value :=
  match fuel with
  | O => None
  | S fuel' =>
      if negb (truthy regionTree) || negb (String.eqb (typeof regionTree) "object")
      then Some (VInt 0)
      else
        let total := js_or (read h regionTree "votes") (VInt 0) in
        if isArray h (read h regionTree "subRegions")
        then
          foldl (fun acc subRegion =>
                   total ← acc;
                   sub ← countVotesInRegions fuel' h subRegion;
                   Some (js_add h total sub))
                (Some total)
                (array_elems h (read h regionTree "subRegions"))
        else Some total
  end.
End Regions.

(** ** [tallyPure] *)

Section Tally.
Context `{Host}.

End Tally.

(** ** Notions used in the statements *)




Section Specification.
Context `{Host}.

(** What holds of every election over candidates with string ids. *)
Record election_inv (st : election) : Prop := {
  inv_voted : votedVoters st ⊆ registeredVoters st;
  inv_keys : ∀ k, k ∈ (candidateMap st).*1 → ∃ s, k = VStr s;
  inv_nodup : NoDup (candidateMap st).*1;
  inv_dom : ∀ s, s ∈ dom (votes st) ↔ VStr s ∈ (candidateMap st).*1;
  inv_counts : ∀ s n, votes st !! s = Some n → ∃ z, n = Int z ∧ 0 ≤ z;
  inv_total : totalVotes (votes st) = Int (Z.of_nat (size (votedVoters st)));
  inv_candidates : ∀ c, c ∈ (candidateMap st).*2 → c ≠ VUndefined ∧ c ≠ VNull
}.

(** The same during the loop of the constructor, where every count is 0. *)
Definition fresh_election (vs : gmap string number) (cm : list (value * value))
  : election :=
  {| votes := vs; registeredVoters := ∅; votedVoters := ∅; candidateMap := cm |}.

Definition loop_inv (vs : gmap string number) (cm : list (value * value)) : Prop :=
  election_inv (fresh_election vs cm) ∧ ∀ s n, vs !! s = Some n → n = Int 0.

(** When [registerVoter] refuses a voter: the voter is missing (falsy),
    its [id] or its [name] is missing or empty (falsy), its [age] is not a
    number, its [age] is below 18, or its [id] is registered already. *)
Definition refused (h : heap) (st : election) (voter : value) : Prop :=
  truthy voter = false
  ∨ truthy (read h voter "id") = false
  ∨ truthy (read h voter "name") = false
  ∨ typeof (read h voter "age") ≠ "number"
  ∨ (∃ age, read h voter "age" = VInt age ∧ age < 18)
  ∨ read h voter "id" ∈ registeredVoters st.


Definition is_primitive (v : value) : Prop := ∃ p, v = VPrim p.

(** A candidate as the data model has it at the time of a call: an object
    of the heap whose [id], [name] and [party] are not objects. *)
Definition candidate_record (h : heap) (candidate : value) : Prop :=
  ∃ l o, candidate = VRef l ∧ h !! l = Some o
         ∧ is_primitive (read h candidate "id")
         ∧ is_primitive (read h candidate "name")
         ∧ is_primitive (read h candidate "party").

(** The result entry [getResults] builds for an entry of [candidateMap]. *)
Definition entry_of (h : heap) (vs : gmap string number) (e : value * value)
  : object :=
  Obj {[ "id" := read h e.2 "id"; "name" := read h e.2 "name";
         "party" := read h e.2 "party"; "votes" := votes_at h vs e.1 ]}.

(** The references to [n] objects allocated one after the other from
    location [base] on. *)
Definition new_refs (base n : nat) : list value := VRef <$> seq base n.

(** The [votes] field of a result entry, as an integer. *)
Definition entry_votes (h : heap) (v : value) : Z :=
  match read h v "votes" with VInt z => z | _ => 0 end.




(** The election once [id] is registered. *)
Definition with_registered (st : election) (id : value) : election :=
  {| votes := votes st;
     registeredVoters := {[id]} ∪ registeredVoters st;
     votedVoters := votedVoters st;
     candidateMap := candidateMap st |}.

End Specification.

(** ** Closed examples *)

(** A host that converts every object to ["[object Object]"], reads no
    string as a number and whose functions return [undefined]. *)
Definition plain_host : Host :=
  {| ToPrimitive := λ _ _ _, PStr "[object Object]";
     StringToNumber := λ _, NaN;
     Call := λ _ _ _, VUndefined |}.

Definition candidate (id name party : string) : object :=
  Obj {[ "id" := VStr id; "name" := VStr name; "party" := VStr party ]}.

Definition voter (id name : string) (age : Z) : object :=
  Obj {[ "id" := VStr id; "name" := VStr name; "age" := VInt age ]}.

(** Two candidates and two voters, the second one a child. *)
Definition village : heap :=
  [ candidate "C1" "Sarpanch Ram" "Janata";
    candidate "C2" "Pradhan Sita" "Lok";
    voter "V1" "Mohan" 25;
    voter "V2" "Chotu" 12 ].

Definition village_candidates : list value := [VRef 0%nat; VRef 1%nat].

(** [createElection] on the two candidates. *)
Definition village_election : election :=
  {| votes := {[ "C1" := Int 0; "C2" := Int 0 ]};
     registeredVoters := ∅;
     votedVoters := ∅;
     candidateMap := [(VStr "C1", VRef 0%nat); (VStr "C2", VRef 1%nat)] |}.

(** Mohan registers, then votes for the second candidate. *)
Definition village_calls : list (heap * call) :=
  [ (village, CallRegisterVoter (VRef 2%nat));
    (village, CallCastVote (VStr "V1") (VStr "C2") (VFun 0) (VFun 1)) ].


(** A region that is its own sub-region. *)
Definition ouroboros : heap :=
  [ Obj {[ "name" := VStr "Z"; "votes" := VInt 1; "subRegions" := VRef 1%nat ]};
    Arr [VRef 0%nat] ].

(** Rules [{minAge: 18, requiredFields: ["id", "name"]}] and three voters:
    one without a name, one of age 3 and one without an age. *)
Definition office : heap :=
  [ Obj {[ "minAge" := VInt 18; "requiredFields" := VRef 1%nat ]};
    Arr [VStr "id"; VStr "name"];
    Obj {[ "id" := VStr "V1"; "age" := VInt 30 ]};
    voter "V2" "Chotu" 3;
    Obj {[ "id" := VStr "V3"; "name" := VStr "Kamla" ]} ].

(** Two candidates under one id. *)
Definition twins : heap :=
  [ candidate "C1" "Sarpanch Ram" "Janata";
    candidate "C1" "Sarpanch Shyam" "Lok" ].



(** A host whose functions are comparators by ascending [votes]:
    [(a, b) => a.votes - b.votes]. *)
Definition ascending_host : Host :=
  {| ToPrimitive := λ _ _ _, PStr "[object Object]";
     StringToNumber := λ _, NaN;
     Call := λ _ h args,
       match args with
       | [a; b] =>
           match read h a "votes", read h b "votes" with
           | VInt x, VInt y => VInt (x - y)
           | _, _ => VUndefined
           end
       | _ => VUndefined
       end |}.

(** The key of that order in the heap [getResults] sorts for the village
    after Mohan's vote: the negated [votes] of an entry. *)
Definition ascending_key (r : value) : Z :=
  - entry_votes
      (village
         ++ Arr (new_refs 5 2)
         :: [ Obj {[ "id" := VStr "C1"; "name" := VStr "Sarpanch Ram";
                     "party" := VStr "Janata"; "votes" := VInt 0 ]};
              Obj {[ "id" := VStr "C2"; "name" := VStr "Pradhan Sita";
                     "party" := VStr "Lok"; "votes" := VInt 1 ]} ])
      r.

(** ** Notions used in the further properties *)






Section Composition.
Context `{Host}.

End Composition.

(** * Properties *)

(** ** Conversions on primitives *)

Section OperatorFacts.
Context `{Host}.

Lemma ToPropertyKey_string (h : heap) (s : string) :
  ToPropertyKey h (VStr s) = s.
Proof. reflexivity. Qed.

Lemma num_add_comm (a b : number) : num_add a b = num_add b a.
Proof. destruct a, b; simpl; f_equal; lia. Qed.

Lemma num_add_assoc (a b c : number) :
  num_add (num_add a b) c = num_add a (num_add b c).
Proof. destruct a, b, c; simpl; f_equal; lia. Qed.

Lemma get_Ok_inv (h : heap) (v : value) (k : string) (x : value) :
  get h v k = Ok x → x = read h v k ∧ v ≠ VUndefined ∧ v ≠ VNull.
Proof.
  destruct v as [[]| |]; simpl; intros [= <-]; repeat split; congruence.
Qed.

End OperatorFacts.

(** ** [Map] and the vote total *)

Section ContainerFacts.

Lemma Map_has_spec (m : list (value * value)) (k : value) :
  Map_has m k = true ↔ k ∈ m.*1.
Proof. unfold Map_has. apply bool_decide_eq_true. Qed.

Lemma Map_set_keys (m : list (value * value)) (k v k' : value) :
  k' ∈ (Map_set m k v).*1 ↔ k' = k ∨ k' ∈ m.*1.
Proof.
  induction m as [|[k0 v0] m IH]; csimpl.
  - rewrite list_elem_of_singleton, elem_of_nil. tauto.
  - case_decide; subst; csimpl; rewrite !elem_of_cons; [tauto|].
    rewrite IH. tauto.
Qed.

Lemma Map_set_values (m : list (value * value)) (k v c : value) :
  c ∈ (Map_set m k v).*2 → c = v ∨ c ∈ m.*2.
Proof.
  induction m as [|[k0 v0] m IH]; csimpl.
  - rewrite list_elem_of_singleton. tauto.
  - case_decide; subst; csimpl; rewrite !elem_of_cons; [tauto|].
    intros [->|Hc]; [tauto|]. destruct (IH Hc); tauto.
Qed.

Lemma Map_set_NoDup (m : list (value * value)) (k v : value) :
  NoDup m.*1 → NoDup (Map_set m k v).*1.
Proof.
  induction m as [|[k0 v0] m IH]; csimpl; intros Hnd.
  - apply NoDup_singleton.
  - inversion_clear Hnd as [|?? Hnotin Hnd'].
    case_decide; subst; csimpl.
    + by constructor.
    + constructor; [|by auto].
      rewrite Map_set_keys. intros [?|?]; [congruence|done].
Qed.

Lemma totalVotes_empty : totalVotes ∅ = Int 0.
Proof. unfold totalVotes. by rewrite map_fold_empty. Qed.

Lemma totalVotes_insert (vs : gmap string number) (k : string) (n : number) :
  vs !! k = None →
  totalVotes (<[k := n]> vs) = num_add (totalVotes vs) n.
Proof.
  intros Hk. unfold totalVotes.
  rewrite map_fold_insert_L; [done| |done].
  intros. rewrite !num_add_assoc. f_equal. apply num_add_comm.
Qed.

Lemma totalVotes_delete (vs : gmap string number) (k : string) (n : number) :
  vs !! k = Some n →
  totalVotes vs = num_add (totalVotes (delete k vs)) n.
Proof.
  intros Hk. rewrite <- (insert_delete_id vs k n) at 1 by done.
  apply totalVotes_insert, lookup_delete_eq.
Qed.

Lemma totalVotes_zero (vs : gmap string number) :
  (∀ s n, vs !! s = Some n → n = Int 0) → totalVotes vs = Int 0.
Proof.
  induction vs as [|k n vs Hk IH] using map_ind; intros Hall.
  - apply totalVotes_empty.
  - rewrite totalVotes_insert by done.
    rewrite IH, (Hall k n); [done|by rewrite lookup_insert_eq|].
    intros s n' Hs. apply (Hall s). rewrite lookup_insert_ne; [done|].
    intros ->. congruence.
Qed.
End ContainerFacts.

(** ** The invariants of an election *)

Section ElectionInvariant.
Context `{Host}.

Lemma loop_inv_empty : loop_inv ∅ [].
Proof.
  split; [split; simpl|].
  - done.
  - intros k Hk. by apply elem_of_nil in Hk.
  - constructor.
  - intros s. rewrite dom_empty_L, elem_of_nil. set_solver.
  - intros s n. by rewrite lookup_empty.
  - apply totalVotes_empty.
  - intros c Hc. by apply elem_of_nil in Hc.
  - intros s n. by rewrite lookup_empty.
Qed.

Lemma loop_inv_next (vs : gmap string number) (cm : list (value * value))
    (s : string) (candidate : value) :
  candidate ≠ VUndefined → candidate ≠ VNull →
  loop_inv vs cm →
  loop_inv (<[s := Int 0]> vs) (Map_set cm (VStr s) candidate).
Proof.
  intros Hu Hn [[_ Hkeys Hnd Hdom _ _ Hcand] Hzero]; simpl in *.
  assert (Hzero' : ∀ s' n, <[s := Int 0]> vs !! s' = Some n → n = Int 0).
  { intros s' n. rewrite lookup_insert. case_decide; [congruence|]. apply Hzero. }
  split; [split; simpl|]; [done| | | | | | |done].
  - intros k [->|Hk]%Map_set_keys; eauto.
  - by apply Map_set_NoDup.
  - intros s'. rewrite dom_insert_L, Map_set_keys, elem_of_union,
      elem_of_singleton, Hdom.
    split; (intros [Heq|?]; [left|by right]); congruence.
  - intros s' n Hs. rewrite (Hzero' _ _ Hs). exists 0. split; [done|lia].
  - by apply totalVotes_zero.
  - intros c [->|Hc]%Map_set_values; auto.
Qed.

Lemma createElection_loop_inv (h : heap) (candidates : list value)
    (vs vs' : gmap string number) (cm cm' : list (value * value)) :
  Forall (has_string_id h) candidates →
  createElection_loop h candidates vs cm = Ok (vs', cm') →
  loop_inv vs cm → loop_inv vs' cm'.
Proof.
  intros Hids. revert vs cm.
  induction Hids as [|candidate rest [s Hid] _ IH]; intros vs cm; simpl.
  - by intros [= <- <-].
  - rewrite Hid. simpl. intros Hloop Hinv.
    apply get_Ok_inv in Hid as (_ & Hu & Hn).
    eapply IH; [done|]. by apply loop_inv_next.
Qed.

(** The constructor does not throw on candidates of the data model. *)
Lemma createElection_loop_total (h : heap) (candidates : list value)
    (vs : gmap string number) (cm : list (value * value)) :
  Forall (has_string_id h) candidates →
  ∃ r, createElection_loop h candidates vs cm = Ok r.
Proof.
  intros Hids. revert vs cm.
  induction Hids as [|candidate rest [s Hid] _ IH]; intros vs cm; simpl.
  - eauto.
  - rewrite Hid. simpl. apply IH.
Qed.

Lemma createElection_total (h : heap) (candidates : list value) :
  Forall (has_string_id h) candidates →
  ∃ st, createElection h candidates = Ok st.
Proof.
  intros Hids. unfold createElection.
  destruct (createElection_loop_total h candidates ∅ [] Hids) as [[vs cm] ->].
  simpl. eauto.
Qed.

Lemma createElection_inv (h : heap) (candidates : list value) (st : election) :
  Forall (has_string_id h) candidates →
  createElection h candidates = Ok st →
  election_inv st.
Proof.
  intros Hids. unfold createElection.
  destruct (createElection_loop h candidates ∅ []) as [[vs cm]|] eqn:Hloop;
    simpl; [|done].
  intros [= <-].
  by destruct (createElection_loop_inv _ _ _ _ _ _ Hids Hloop loop_inv_empty).
Qed.

Lemma registerVoter_inv (h : heap) (st : election) (voter : value) :
  election_inv st → election_inv (registerVoter h st voter).1.
Proof.
  intros Hinv. unfold registerVoter.
  repeat (case_match; [done|]). simpl.
  destruct Hinv as [Hvoted ? ? ? ? ? ?].
  split; simpl; try done.
  unfold Set_add. set_solver.
Qed.

(** A vote for a known candidate finds an integer count. *)
Lemma known_candidate_count (st : election) (candidateId : value) :
  election_inv st →
  Map_has (candidateMap st) candidateId = true →
  ∃ s z, candidateId = VStr s ∧ votes st !! s = Some (Int z) ∧ 0 ≤ z.
Proof.
  intros Hinv Hhas%Map_has_spec.
  destruct (inv_keys _ Hinv _ Hhas) as [s ->].
  apply (inv_dom _ Hinv), elem_of_dom in Hhas as [n Hn].
  destruct (inv_counts _ Hinv _ _ Hn) as (z & -> & Hz). eauto.
Qed.

Lemma increment_known (h : heap) (vs : gmap string number) (s : string) (z : Z) :
  vs !! s = Some (Int z) →
  increment h vs (VStr s) = <[s := Int (z + 1)]> vs.
Proof. intros Hs. unfold increment. by rewrite ToPropertyKey_string, Hs. Qed.

Lemma totalVotes_increment (vs : gmap string number) (s : string) (z t : Z) :
  vs !! s = Some (Int z) →
  totalVotes vs = Int t →
  totalVotes (<[s := Int (z + 1)]> vs) = Int (t + 1).
Proof.
  intros Hs Ht. rewrite (totalVotes_delete _ _ _ Hs) in Ht.
  rewrite <- insert_delete_eq.
  rewrite totalVotes_insert by apply lookup_delete_eq.
  destruct (totalVotes (delete s vs)); simpl in *; [|done].
  injection Ht as <-. f_equal. lia.
Qed.

Lemma castVote_inv (h : heap) (st : election)
    (voterId candidateId onSuccess onError : value) :
  election_inv st →
  election_inv (castVote h st voterId candidateId onSuccess onError).1.2.
Proof.
  intros Hinv. unfold castVote.
  destruct (_ || _); [done|].
  destruct (Set_has (registeredVoters st) voterId) eqn:Hreg; [|done].
  destruct (Set_has (votedVoters st) voterId) eqn:Hvoted; [done|].
  destruct (Map_has (candidateMap st) candidateId) eqn:Hcand; [|done].
  simpl.
  destruct (known_candidate_count _ _ Hinv Hcand) as (s & z & -> & Hs & Hz).
  rewrite (increment_known _ _ _ _ Hs).
  apply bool_decide_eq_true in Hreg. apply bool_decide_eq_false in Hvoted.
  destruct Hinv as [Hsub Hkeys Hnd Hdom Hcounts Htotal Hcands].
  split; simpl; try done.
  - unfold Set_add. set_solver.
  - intros s'. rewrite dom_insert_L, <- Hdom.
    assert (s ∈ dom (votes st)) by (apply elem_of_dom; eauto).
    set_solver.
  - intros s' n. rewrite lookup_insert. case_decide.
    + intros [= <-]. exists (z + 1). split; [done|lia].
    + apply Hcounts.
  - rewrite (totalVotes_increment _ _ _ _ Hs Htotal).
    unfold Set_add. rewrite size_union, size_singleton by set_solver.
    f_equal. lia.
Qed.

Lemma step_inv (st : election) (hc : heap * call) :
  election_inv st → election_inv (step st hc).
Proof.
  destruct hc as [h [voter|voterId candidateId onSuccess onError]]; simpl.
  - apply registerVoter_inv.
  - apply castVote_inv.
Qed.


Lemma reachable_inv (st : election) : reachable st → election_inv st.
Proof.
  induction 1 as [h candidates st Hids Hcreate|st hc _ IH].
  - by eapply createElection_inv.
  - by apply step_inv.
Qed.

Lemma reachable_run (st : election) (calls : list (heap * call)) :
  reachable st → reachable (run st calls).
Proof.
  revert st. induction calls as [|hc calls IH]; intros st Hst; simpl.
  - done.
  - apply IH. by constructor.
Qed.

End ElectionInvariant.

(** ** The methods [registerVoter] and [castVote] *)

Section ElectionMethods.
Context `{Host}.

Lemma typeof_eqb (v : value) (s : string) :
  String.eqb (typeof v) s = true ↔ typeof v = s.
Proof. apply String.eqb_eq. Qed.

Lemma typeof_number_inv (v : value) :
  typeof v = "number" → ∃ n, v = VNum n.
Proof. destruct v as [[]| |]; simpl; try done. eauto. Qed.

Lemma js_lt_numbers (h : heap) (a b : number) :
  js_lt h (VNum a) (VNum b) = num_lt a b.
Proof. reflexivity. Qed.

(** C4. [registerVoter] returns [false] and leaves the election as it is
    when the voter is missing, when its id or name is missing or empty,
    when its age is not a number or is below 18, and when its id is
    registered already; in every other case it returns [true] and the only
    change is that the voter's id has joined [registeredVoters]. *)
Theorem registerVoter_spec (h : heap) (st : election) (voter : value) :
  (refused h st voter → registerVoter h st voter = (st, false)) ∧
  (¬ refused h st voter →
   registerVoter h st voter = (with_registered st (read h voter "id"), true)).
Proof.
  unfold refused, registerVoter.
  destruct (truthy voter); simpl; [|split; [done|tauto]].
  destruct (truthy (read h voter "id")); simpl; [|split; [done|tauto]].
  destruct (truthy (read h voter "name")); simpl; [|split; [done|tauto]].
  destruct (String.eqb (typeof (read h voter "age")) "number") eqn:Hty; simpl;
    [apply typeof_eqb in Hty|apply String.eqb_neq in Hty; split; [done|tauto]].
  destruct (typeof_number_inv _ Hty) as [n Hn]. rewrite Hn, js_lt_numbers.
  destruct (num_lt n (Int 18)) eqn:Hlt.
  { split; [done|]. intros Hnot. exfalso. apply Hnot.
    do 4 right. left. destruct n as [z|]; simpl in Hlt; [|done].
    exists z. split; [done|]. by apply Z.ltb_lt. }
  unfold Set_has.
  destruct (bool_decide_reflect (read h voter "id" ∈ registeredVoters st))
    as [Hin|Hin].
  { split; [done|]. tauto. }
  split; [|done].
  intros [?|[?|[?|[Hnum|[(age & [= ->] & Hage)|?]]]]]; try done.
  simpl in Hlt. apply Z.ltb_ge in Hlt. lia.
Qed.

(** C2. With a callback that is not a function, [castVote] returns [null],
    changes nothing and calls nothing.  With two functions, a voter who is
    not registered gets [onError("Voter not registered")]; a registered
    voter who has voted gets [onError("Voter already voted")]; a registered
    voter who has not voted but names an unknown candidate gets
    [onError("Invalid candidate")]; in the three cases the election is
    unchanged. *)
Theorem castVote_failures (h : heap) (st : election)
    (voterId candidateId onSuccess onError : value) :
  (typeof onSuccess ≠ "function" ∨ typeof onError ≠ "function" →
   castVote h st voterId candidateId onSuccess onError = (h, st, Return VNull)) ∧
  (typeof onSuccess = "function" → typeof onError = "function" →
   (voterId ∉ registeredVoters st →
    castVote h st voterId candidateId onSuccess onError
    = (h, st, ReturnCall onError [VStr "Voter not registered"])) ∧
   (voterId ∈ registeredVoters st → voterId ∈ votedVoters st →
    castVote h st voterId candidateId onSuccess onError
    = (h, st, ReturnCall onError [VStr "Voter already voted"])) ∧
   (voterId ∈ registeredVoters st → voterId ∉ votedVoters st →
    candidateId ∉ (candidateMap st).*1 →
    castVote h st voterId candidateId onSuccess onError
    = (h, st, ReturnCall onError [VStr "Invalid candidate"]))).
Proof.
  unfold castVote, Set_has, Map_has. split.
  - intros [Hf|Hf]; apply String.eqb_neq in Hf; rewrite Hf; simpl; [done|].
    by rewrite orb_true_r.
  - intros ->%typeof_eqb ->%typeof_eqb. simpl. split_and!.
    + intros Hreg. by rewrite (bool_decide_eq_false_2 _ Hreg).
    + intros Hreg Hvoted.
      by rewrite (bool_decide_eq_true_2 _ Hreg), (bool_decide_eq_true_2 _ Hvoted).
    + intros Hreg Hvoted Hcand.
      by rewrite (bool_decide_eq_true_2 _ Hreg), (bool_decide_eq_false_2 _ Hvoted),
        (bool_decide_eq_false_2 _ Hcand).
Qed.

End ElectionMethods.

(** ** [getWinner] *)

Section Winner.
Context `{Host}.




End Winner.

(** ** Sorting *)

Section Sorting.
Context {A : Type} (key : A → Z).

Lemma insert_desc_perm (x : A) (l : list A) : insert_desc key x l ≡ₚ x :: l.
Proof.
  induction l as [|y l IH]; simpl; [done|].
  destruct (key y <=? key x); [done|].
  rewrite IH. apply Permutation_swap.
Qed.

Lemma sort_desc_perm (l : list A) : sort_desc key l ≡ₚ l.
Proof.
  induction l as [|x l IH]; simpl; [done|].
  by rewrite insert_desc_perm, IH.
Qed.

Lemma insert_desc_sorted (x : A) (l : list A) :
  StronglySorted (λ a b, key b ≤ key a) l →
  StronglySorted (λ a b, key b ≤ key a) (insert_desc key x l).
Proof.
  induction 1 as [|y l Hl IH Hy]; simpl.
  - repeat constructor.
  - destruct (Z.leb_spec (key y) (key x)) as [Hle|Hgt].
    + constructor; [by constructor|].
      constructor; [done|].
      eapply Forall_impl; [done|]. simpl. lia.
    + constructor; [done|].
      rewrite insert_desc_perm. constructor; [lia|done].
Qed.

Lemma sort_desc_sorted (l : list A) :
  StronglySorted (λ a b, key b ≤ key a) (sort_desc key l).
Proof.
  induction l as [|x l IH]; simpl; [constructor|].
  by apply insert_desc_sorted.
Qed.

(** Insertion passes only elements with a larger key, so among the
    elements of one key the new one comes first. *)
Lemma insert_desc_filter (z : Z) (x : A) (l : list A) :
  filter (λ a, key a = z) (insert_desc key x l)
  = filter (λ a, key a = z) (x :: l).
Proof.
  induction l as [|y l IH]; simpl; [done|].
  destruct (Z.leb_spec (key y) (key x)) as [Hle|Hgt]; [done|].
  rewrite filter_cons, IH, !filter_cons.
  repeat case_decide; try done. lia.
Qed.

Lemma sort_desc_stable (z : Z) (l : list A) :
  filter (λ a, key a = z) (sort_desc key l) = filter (λ a, key a = z) l.
Proof.
  induction l as [|x l IH]; simpl; [done|].
  by rewrite insert_desc_filter, !filter_cons, IH.
Qed.
End Sorting.

Section ArraySort.

(** On a list whose comparisons are those of an integer key, descending,
    [Array_sort] is [sort_desc]. *)
Lemma sort_insert_desc (cmp : value → value → number) (key : value → Z)
    (x : value) (l : list value) :
  (∀ y, y ∈ l → stays_before cmp x y = (key y <=? key x)) →
  sort_insert cmp x l = insert_desc key x l.
Proof.
  induction l as [|y l IH]; simpl; intros Hcmp; [done|].
  rewrite Hcmp by apply list_elem_of_here.
  rewrite IH; [done|]. intros y' Hy'. apply Hcmp. by apply list_elem_of_further.
Qed.

Lemma Array_sort_desc (cmp : value → value → number) (key : value → Z)
    (l : list value) :
  (∀ x y, x ∈ l → y ∈ l → stays_before cmp x y = (key y <=? key x)) →
  Array_sort cmp l = sort_desc key l.
Proof.
  induction l as [|x l IH]; simpl; intros Hcmp; [done|].
  rewrite IH.
  - apply sort_insert_desc. intros y Hy.
    apply Hcmp; [apply list_elem_of_here|apply list_elem_of_further].
    by rewrite <- (sort_desc_perm key l).
  - intros x' y' Hx' Hy'. apply Hcmp; by apply list_elem_of_further.
Qed.
End ArraySort.

(** ** [getResults] *)

Section Results.
Context `{Host}.

Lemma read_old (h ext : heap) (l : loc) (k : string) :
  (l < length h)%nat → read (h ++ ext) (VRef l) k = read h (VRef l) k.
Proof. intros Hl. unfold read. simpl. by rewrite lookup_app_l. Qed.


Lemma Array_push_fresh (h : heap) (acc : list value) (objs : list object)
    (x : value) :
  Array_push (h ++ Arr acc :: objs) (length h) x = h ++ Arr (acc ++ [x]) :: objs.
Proof.
  unfold Array_push. rewrite list_lookup_middle by done.
  rewrite insert_app_r_alt by lia. by rewrite Nat.sub_diag.
Qed.

Lemma sort_in_place_fresh (h : heap) (es : list value) (objs : list object)
    (cmp : value → value → number) :
  sort_in_place (h ++ Arr es :: objs) (length h) cmp
  = h ++ Arr (Array_sort cmp es) :: objs.
Proof.
  unfold sort_in_place. rewrite list_lookup_middle by done.
  rewrite insert_app_r_alt by lia. by rewrite Nat.sub_diag.
Qed.

Lemma new_refs_S (base n : nat) :
  new_refs base (S n) = VRef base :: new_refs (S base) n.
Proof. reflexivity. Qed.

Lemma elem_of_new_refs (base n : nat) (x : value) :
  x ∈ new_refs base n ↔ ∃ i, x = VRef (base + i) ∧ (i < n)%nat.
Proof.
  unfold new_refs. rewrite list_elem_of_fmap. split.
  - intros (l & -> & Hl%elem_of_seq). exists (l - base)%nat.
    split; [f_equal|]; lia.
  - intros (i & -> & Hi). exists (base + i)%nat. split; [done|].
    apply elem_of_seq. lia.
Qed.

(** The loop allocates the entries one after the other behind the array
    and pushes their references in iteration order. *)
Lemma getResults_loop_spec (h : heap) (vs : gmap string number)
    (entries : list (value * value)) (acc : list value) (objs : list object) :
  Forall (λ e, (∃ s, e.1 = VStr s) ∧ ∃ l, e.2 = VRef l ∧ (l < length h)%nat)
         entries →
  getResults_loop (h ++ Arr acc :: objs) vs entries (length h)
  = Ok (h ++ Arr (acc ++ new_refs (S (length h) + length objs) (length entries))
          :: (objs ++ (entry_of h vs <$> entries))).
Proof.
  intros Hentries. revert acc objs.
  induction Hentries as [|[id c] entries [[s Hid] (l & Hc & Hl)] _ IH];
    intros acc objs.
  { simpl. by rewrite !app_nil_r. }
  simpl in Hid, Hc. subst id c.
  cbn [getResults_loop get mbind result_bind].
  rewrite !(read_old h _ l) by done.
  unfold alloc. rewrite <- app_assoc. cbn [app].
  rewrite Array_push_fresh, IH.
  rewrite length_app, length_app. cbn [length].
  rewrite new_refs_S, fmap_cons, <- !app_assoc. cbn [app].
  replace (length h + S (length objs))%nat with (S (length h) + length objs)%nat
    by lia.
  replace (S (length h) + (length objs + 1))%nat
    with (S (S (length h) + length objs)) by lia.
  reflexivity.
Qed.





End Results.

(** ** [tallyPure] *)

Section TallyFacts.
Context `{Host}.




End TallyFacts.

(** ** [countVotesInRegions] *)

Section RegionFacts.
Context `{Host}.





(** On a region that contains itself the recursion never returns. *)
Lemma countVotesInRegions_cycle (fuel : nat) :
  countVotesInRegions fuel ouroboros (VRef 0%nat) = None.
Proof.
  induction fuel as [|fuel IH]; [done|].
  change (countVotesInRegions (S fuel) ouroboros (VRef 0%nat))
    with (sub ← countVotesInRegions fuel ouroboros (VRef 0%nat);
          Some (js_add ouroboros (VInt 1) sub)).
  by rewrite IH.
Qed.

End RegionFacts.

(** ** [createVoteValidator] *)

Section ValidatorFacts.
Context `{Host}.







End ValidatorFacts.

(** * Further properties *)

(** ** The constructor *)

Section ConstructorFacts.
Context `{Host}.



(** [Map.set] on a map without duplicate keys: the entry of the key is the
    new one, the other entries stay. *)
Lemma Map_set_entries (m : list (value * value)) (k v k' v' : value) :
  NoDup m.*1 →
  (k', v') ∈ Map_set m k v ↔ (k' = k ∧ v' = v) ∨ (k' ≠ k ∧ (k', v') ∈ m).
Proof.
  induction m as [|[k0 v0] m IH]; csimpl; intros Hnd.
  - rewrite list_elem_of_singleton, elem_of_nil. split.
    + intros [= -> ->]. by left.
    + intros [[-> ->]|[_ []]]. done.
  - inversion_clear Hnd as [|?? Hnotin Hnd'].
    case_decide as Hk; subst; rewrite !elem_of_cons.
    + split.
      * intros [[= -> ->]|Hin]; [by left|]. right. split; [|by right].
        intros ->. apply Hnotin, list_elem_of_fmap. by exists (k, v').
      * intros [[-> ->]|[Hne [[= ? ?]|Hin]]]; [by left|congruence|by right].
    + rewrite IH by done. split.
      * intros [[= -> ->]|[[-> ->]|[Hne Hin]]]; [|by left|].
        -- right. split; [done|by left].
        -- right. split; [done|by right].
      * intros [[-> ->]|[Hne [[= -> ->]|Hin]]]; [right; by left|by left|].
        right. right. by split.
Qed.

(** The loop of the constructor keeps the keys distinct; an entry of the
    map it leaves is the last candidate of its [id], or an entry that was
    there and met no candidate of its [id]. *)
Lemma createElection_loop_entries (h : heap) (candidates : list value)
    (vs vs' : gmap string number) (cm cm' : list (value * value)) :
  createElection_loop h candidates vs cm = Ok (vs', cm') →
  NoDup cm.*1 →
  NoDup cm'.*1
  ∧ ∀ id c,
      (id, c) ∈ cm'
      ↔ (∃ before after,
           candidates = before ++ c :: after
           ∧ read h c "id" = id
           ∧ ∀ c', c' ∈ after → read h c' "id" ≠ id)
        ∨ ((id, c) ∈ cm ∧ ∀ c', c' ∈ candidates → read h c' "id" ≠ id).
Proof.
  revert vs cm. induction candidates as [|c0 rest IH]; intros vs cm; simpl.
  - intros [= <- <-] Hnd. split; [done|]. intros id c. split.
    + intros Hin. right. split; [done|]. by intros c' ?%elem_of_nil.
    + intros [(before & after & Heq & _)|[Hin _]]; [|done].
      by destruct before.
  - destruct (get h c0 "id") as [id0|] eqn:Hget; simpl; [|done].
    apply get_Ok_inv in Hget as (-> & _ & _).
    intros Hloop Hnd.
    destruct (IH _ _ Hloop (Map_set_NoDup _ _ _ Hnd)) as [Hnd' Hentries].
    split; [done|]. intros id c. rewrite Hentries. clear Hentries. split.
    + intros [(before & after & -> & Hid & Hlast)|[Hin Hnone]].
      * left. exists (c0 :: before), after. by split_and!.
      * apply Map_set_entries in Hin; [|done].
        destruct Hin as [[-> ->]|[Hne Hin]].
        -- left. exists [], rest. by split_and!.
        -- right. split; [done|]. intros c' [->|Hc']%elem_of_cons; [done|].
           by apply Hnone.
    + intros [(before & after & Heq & Hid & Hlast)|[Hin Hnone]].
      * destruct before as [|b before]; simplify_eq/=.
        -- right. split; [|done]. apply Map_set_entries; [done|]. by left.
        -- left. exists before, after. by split_and!.
      * right. split.
        -- apply Map_set_entries; [done|]. right. split; [|done].
           intros Heq. by apply (Hnone c0); [apply list_elem_of_here|].
        -- intros c' Hc'. by apply Hnone, list_elem_of_further.
Qed.

(** X2. In the election [createElection] returns, no two entries of
    [candidateMap] have the same key, and the candidate stored under an id
    is the last candidate of the array with that id: a later duplicate
    replaces an earlier one. *)
Theorem createElection_duplicates (h : heap) (candidates : list value)
    (st : election) :
  createElection h candidates = Ok st →
  NoDup (candidateMap st).*1
  ∧ ∀ id c,
      (id, c) ∈ candidateMap st
      ↔ ∃ before after,
          candidates = before ++ c :: after
          ∧ read h c "id" = id
          ∧ ∀ c', c' ∈ after → read h c' "id" ≠ id.
Proof.
  unfold createElection.
  destruct (createElection_loop h candidates ∅ []) as [[vs cm]|] eqn:Hloop;
    simpl; [|done].
  intros [= <-]. simpl.
  destruct (createElection_loop_entries _ _ _ _ _ _ Hloop) as [Hnd Hentries].
  { constructor. }
  split; [done|]. intros id c. rewrite Hentries. split.
  - intros [?|[[]%elem_of_nil _]]. done.
  - by left.
Qed.

Lemma createElection_loop_zero (h : heap) (candidates : list value)
    (vs vs' : gmap string number) (cm cm' : list (value * value)) :
  createElection_loop h candidates vs cm = Ok (vs', cm') →
  (∀ s n, vs !! s = Some n → n = Int 0) →
  ∀ s n, vs' !! s = Some n → n = Int 0.
Proof.
  revert vs cm. induction candidates as [|c rest IH]; intros vs cm; simpl.
  - by intros [= <- <-].
  - destruct (get h c "id") as [id|]; simpl; [|done].
    intros Hloop Hzero. eapply IH; [done|].
    intros s n. rewrite lookup_insert. case_decide; [congruence|]. apply Hzero.
Qed.

(** X3. A new election has no winner: whatever the candidates, every count
    is 0, nobody is registered, nobody has voted, and [getWinner] returns
    [null]. *)
Theorem createElection_fresh (h h' : heap) (candidates : list value)
    (st : election) :
  createElection h candidates = Ok st →
  (∀ s n, votes st !! s = Some n → n = Int 0)
  ∧ registeredVoters st = ∅
  ∧ votedVoters st = ∅
  ∧ getWinner h' st = VNull.
Proof.
  unfold createElection.
  destruct (createElection_loop h candidates ∅ []) as [[vs cm]|] eqn:Hloop;
    simpl; [|done].
  intros [= <-]. simpl.
  assert (Hzero : ∀ s n, vs !! s = Some n → n = Int 0).
  { eapply createElection_loop_zero; [done|]. intros s n. by rewrite lookup_empty. }
  split_and!; try done.
  unfold getWinner. simpl. by rewrite decide_True by by apply totalVotes_zero.
Qed.
End ConstructorFacts.

(** ** Calls one after the other *)

Section MethodFacts.
Context `{Host}.

(** What an accepted registration has checked and done. *)
Lemma registerVoter_accepts (h : heap) (st st' : election) (voter : value) :
  registerVoter h st voter = (st', true) →
  st' = with_registered st (read h voter "id")
  ∧ truthy voter = true
  ∧ truthy (read h voter "id") = true
  ∧ truthy (read h voter "name") = true
  ∧ typeof (read h voter "age") = "number"
  ∧ js_lt h (read h voter "age") (VInt 18) = false
  ∧ read h voter "id" ∉ registeredVoters st.
Proof.
  unfold registerVoter, Set_has.
  destruct (truthy voter); simpl; [|done].
  destruct (truthy (read h voter "id")); simpl; [|done].
  destruct (truthy (read h voter "name")); simpl; [|done].
  destruct (String.eqb (typeof (read h voter "age")) "number") eqn:Hty;
    simpl; [|done].
  destruct (js_lt h (read h voter "age") (VInt 18)); [done|].
  destruct (bool_decide_reflect (read h voter "id" ∈ registeredVoters st));
    [done|].
  intros [= <-]. by apply String.eqb_eq in Hty.
Qed.

(** X4. Once a voter has been registered, [registerVoter] refuses every
    voter with the same id, in whatever heap and whatever the other fields,
    and leaves the election as it is. *)
Theorem registerVoter_again (h h' : heap) (st st' : election)
    (voter voter' : value) :
  registerVoter h st voter = (st', true) →
  read h' voter' "id" = read h voter "id" →
  registerVoter h' st' voter' = (st', false).
Proof.
  intros (-> & _)%registerVoter_accepts Hid.
  unfold registerVoter. repeat (case_match; [done|]).
  exfalso. rewrite Hid in *.
  match goal with Hhas : Set_has _ _ = false |- _ =>
    apply bool_decide_eq_false in Hhas; apply Hhas end.
  simpl. set_solver.
Qed.

(** The two outcomes of [castVote] for the election: unchanged, or one vote
    recorded after all checks passed. *)
Lemma castVote_cases (h : heap) (st : election)
    (voterId candidateId onSuccess onError : value) :
  (castVote h st voterId candidateId onSuccess onError).1.2 = st
  ∨ (voterId ∈ registeredVoters st
     ∧ (voterId ∉ votedVoters st)
     ∧ candidateId ∈ (candidateMap st).*1
     ∧ (castVote h st voterId candidateId onSuccess onError).1.2
       = {| votes := increment h (votes st) candidateId;
            registeredVoters := registeredVoters st;
            votedVoters := {[voterId]} ∪ votedVoters st;
            candidateMap := candidateMap st |}).
Proof.
  unfold castVote, Set_has, Map_has.
  destruct (_ || _); [by left|].
  destruct (bool_decide_reflect (voterId ∈ registeredVoters st)); [|by left].
  destruct (bool_decide_reflect (voterId ∈ votedVoters st)); [by left|].
  destruct (bool_decide_reflect (candidateId ∈ (candidateMap st).*1)); [|by left].
  right. by split_and!.
Qed.

Lemma registerVoter_cases (h : heap) (st : election) (voter : value) :
  (registerVoter h st voter).1 = st
  ∨ (registerVoter h st voter).1 = with_registered st (read h voter "id").
Proof.
  unfold registerVoter. repeat (case_match; [by left|]). by right.
Qed.

Lemma step_monotone (st : election) (hc : heap * call) :
  registeredVoters st ⊆ registeredVoters (step st hc)
  ∧ votedVoters st ⊆ votedVoters (step st hc)
  ∧ candidateMap (step st hc) = candidateMap st
  ∧ dom (votes st) ⊆ dom (votes (step st hc)).
Proof.
  destruct hc as [h [voter|voterId candidateId onSuccess onError]]; simpl.
  - destruct (registerVoter_cases h st voter) as [-> | ->]; simpl;
      split_and!; set_solver.
  - destruct (castVote_cases h st voterId candidateId onSuccess onError)
      as [-> |(_ & _ & _ & ->)]; simpl; [split_and!; set_solver|].
    unfold increment. rewrite dom_insert_L. split_and!; set_solver.
Qed.

(** X5. No call takes anything back: along any sequence of calls the
    registered voters and the voters who have voted only grow, the keys of
    [votes] only grow, and [candidateMap] stays what the constructor made
    it. *)
Theorem run_monotone (st : election) (calls : list (heap * call)) :
  registeredVoters st ⊆ registeredVoters (run st calls)
  ∧ votedVoters st ⊆ votedVoters (run st calls)
  ∧ candidateMap (run st calls) = candidateMap st
  ∧ dom (votes st) ⊆ dom (votes (run st calls)).
Proof.
  revert st. induction calls as [|hc calls IH]; intros st; simpl.
  - done.
  - destruct (step_monotone st hc) as (Hr & Hv & Hc & Hd).
    destruct (IH (step st hc)) as (Hr' & Hv' & Hc' & Hd').
    split_and!; [set_solver|set_solver|congruence|set_solver].
Qed.

Lemma step_count (st : election) (hc : heap * call) (s : string) (z : Z) :
  election_inv st →
  votes st !! s = Some (Int z) →
  ∃ z', votes (step st hc) !! s = Some (Int z') ∧ z ≤ z' ≤ z + 1.
Proof.
  intros Hinv Hs.
  destruct hc as [h [voter|voterId candidateId onSuccess onError]]; simpl.
  - destruct (registerVoter_cases h st voter) as [-> | ->]; simpl;
      exists z; split; [done|lia|done|lia].
  - destruct (castVote_cases h st voterId candidateId onSuccess onError)
      as [-> |(_ & _ & Hcand%Map_has_spec & ->)]; simpl.
    { exists z. split; [done|lia]. }
    destruct (known_candidate_count _ _ Hinv Hcand) as (key & count & -> & Hk & _).
    rewrite (increment_known _ _ _ _ Hk), lookup_insert.
    case_decide as Heq.
    + subst. rewrite Hs in Hk. injection Hk as <-.
      exists (z + 1). split; [done|lia].
    + exists z. split; [done|lia].
Qed.

(** X6. In an election that a run has produced the count of a candidate
    never goes down, and a sequence of calls raises it by at most the number
    of calls. *)
Theorem run_count (st : election) (calls : list (heap * call))
    (s : string) (z : Z) :
  reachable st →
  votes st !! s = Some (Int z) →
  ∃ z', votes (run st calls) !! s = Some (Int z')
        ∧ z ≤ z' ≤ z + Z.of_nat (length calls).
Proof.
  intros Hinv%reachable_inv. revert st z Hinv.
  induction calls as [|hc calls IH]; intros st z Hinv Hs; simpl.
  - exists z. split; [done|lia].
  - destruct (step_count st hc s z Hinv Hs) as (z1 & Hz1 & Hle1).
    destruct (IH (step st hc) z1 (step_inv _ _ Hinv) Hz1) as (z' & Hz' & Hle').
    exists z'. split; [done|lia].
Qed.

(** X7. One vote per voter: after a vote that passed every check, any
    further [castVote] of the same voter, for whatever candidate, calls
    [onError("Voter already voted")] and changes nothing. *)
Theorem castVote_again (h h' : heap) (st : election)
    (voterId candidateId candidateId' : value)
    (onSuccess onError onSuccess' onError' : value) :
  typeof onSuccess = "function" → typeof onError = "function" →
  voterId ∈ registeredVoters st →
  voterId ∉ votedVoters st →
  candidateId ∈ (candidateMap st).*1 →
  typeof onSuccess' = "function" → typeof onError' = "function" →
  castVote h' (castVote h st voterId candidateId onSuccess onError).1.2
    voterId candidateId' onSuccess' onError'
  = (h', (castVote h st voterId candidateId onSuccess onError).1.2,
     ReturnCall onError' [VStr "Voter already voted"]).
Proof.
  intros Hs He Hreg Hvoted Hcand Hs' He'.
  assert (Hst : (castVote h st voterId candidateId onSuccess onError).1.2
                = {| votes := increment h (votes st) candidateId;
                     registeredVoters := registeredVoters st;
                     votedVoters := {[voterId]} ∪ votedVoters st;
                     candidateMap := candidateMap st |}).
  { unfold castVote, Set_has, Map_has. rewrite Hs, He. simpl.
    by rewrite (bool_decide_eq_true_2 _ Hreg), (bool_decide_eq_false_2 _ Hvoted),
      (bool_decide_eq_true_2 _ Hcand). }
  rewrite Hst. unfold castVote at 1. unfold Set_has. rewrite Hs', He'. simpl.
  rewrite (bool_decide_eq_true_2 _ Hreg).
  by rewrite bool_decide_eq_true_2 by set_solver.
Qed.

(** X8. Candidate ids are matched as they are, without conversion: in an
    election that a run has produced (its ids are strings), a vote whose
    [candidateId] is not a string, such as the number 1 for the candidate
    ["1"], is answered with [onError("Invalid candidate")]. *)
Theorem castVote_no_conversion (h : heap) (st : election)
    (voterId candidateId onSuccess onError : value) :
  reachable st →
  typeof onSuccess = "function" → typeof onError = "function" →
  voterId ∈ registeredVoters st →
  voterId ∉ votedVoters st →
  (∀ s, candidateId ≠ VStr s) →
  castVote h st voterId candidateId onSuccess onError
  = (h, st, ReturnCall onError [VStr "Invalid candidate"]).
Proof.
  intros Hinv%reachable_inv Hs He Hreg Hvoted Hcand.
  unfold castVote, Set_has, Map_has. rewrite Hs, He. simpl.
  rewrite (bool_decide_eq_true_2 _ Hreg), (bool_decide_eq_false_2 _ Hvoted).
  rewrite bool_decide_eq_false_2; [done|].
  intros [s ->]%(inv_keys _ Hinv). by apply (Hcand s).
Qed.

Lemma step_without_candidates (st : election) (hc : heap * call) :
  candidateMap st = [] → votedVoters st = ∅ → votes st = ∅ →
  candidateMap (step st hc) = [] ∧ votedVoters (step st hc) = ∅
  ∧ votes (step st hc) = ∅.
Proof.
  intros Hcm Hvoted Hvotes.
  destruct hc as [h [voter|voterId candidateId onSuccess onError]]; simpl.
  - by destruct (registerVoter_cases h st voter) as [-> | ->].
  - destruct (castVote_cases h st voterId candidateId onSuccess onError)
      as [-> |(_ & _ & Hcand & _)]; [done|].
    rewrite Hcm in Hcand. by apply elem_of_nil in Hcand.
Qed.

(** X9. An election over no candidates: whatever is called, nobody ever
    gets to vote ([castVote] with two functions always ends in a call of
    [onError]), [getWinner] returns [null] and [getResults] returns a new
    empty array. *)
Theorem election_without_candidates (h h' : heap) (st0 : election)
    (calls : list (heap * call)) :
  createElection h [] = Ok st0 →
  votedVoters (run st0 calls) = ∅
  ∧ getWinner h' (run st0 calls) = VNull
  ∧ (∀ sortFn, getResults h' (run st0 calls) sortFn
               = Ok (h' ++ [Arr []], VRef (length h')))
  ∧ (∀ voterId candidateId onSuccess onError,
       typeof onSuccess = "function" → typeof onError = "function" →
       ∃ reason,
         castVote h' (run st0 calls) voterId candidateId onSuccess onError
         = (h', run st0 calls, ReturnCall onError [VStr reason])).
Proof.
  intros [= <-].
  assert (Hrun : ∀ st, candidateMap st = [] → votedVoters st = ∅ → votes st = ∅ →
                 candidateMap (run st calls) = [] ∧ votedVoters (run st calls) = ∅
                 ∧ votes (run st calls) = ∅).
  { induction calls as [|hc calls IH]; intros st Hcm Hvoted Hvotes; simpl; [done|].
    destruct (step_without_candidates st hc Hcm Hvoted Hvotes) as (? & ? & ?).
    by apply IH. }
  match goal with
  | |- context [run ?st calls] =>
      destruct (Hrun st eq_refl eq_refl eq_refl) as (Hcm & Hvoted & Hvotes)
  end.
  split_and!.
  - done.
  - unfold getWinner. rewrite Hvotes. by rewrite decide_True by apply totalVotes_empty.
  - intros sortFn. unfold getResults. rewrite Hcm. cbn [getResults_loop mbind result_bind].
    by rewrite (sort_in_place_fresh h' [] []).
  - intros voterId candidateId onSuccess onError Hs He.
    unfold castVote, Set_has, Map_has. rewrite Hs, He, Hcm, Hvoted. simpl.
    destruct (bool_decide (voterId ∈ registeredVoters (run _ calls))); simpl;
      eauto.
Qed.

(** X20. In an election that a run has produced, a voter who has just been
    registered can vote: [castVote] with the id that was registered, a known
    candidate and two functions ends in the call of [onSuccess] with the new
    payload object. *)
Theorem registered_then_vote (h h' : heap) (st st' : election)
    (voter candidateId onSuccess onError : value) :
  reachable st →
  registerVoter h st voter = (st', true) →
  typeof onSuccess = "function" → typeof onError = "function" →
  candidateId ∈ (candidateMap st).*1 →
  (castVote h' st' (read h voter "id") candidateId onSuccess onError).2
  = ReturnCall onSuccess [VRef (length h')]
  ∧ (castVote h' st' (read h voter "id") candidateId onSuccess onError).1.1
    = h' ++ [Obj {[ "voterId" := read h voter "id"; "candidateId" := candidateId ]}].
Proof.
  intros Hinv%reachable_inv (-> & _ & _ & _ & _ & _ & Hnew)%registerVoter_accepts
    Hs He Hcand.
  assert (Hvoted : read h voter "id" ∉ votedVoters st).
  { intros Hin. by apply Hnew, (inv_voted _ Hinv). }
  unfold castVote, Set_has, Map_has. rewrite Hs, He. simpl.
  rewrite bool_decide_eq_true_2 by set_solver.
  rewrite (bool_decide_eq_false_2 _ Hvoted), (bool_decide_eq_true_2 _ Hcand).
  done.
Qed.

(** Each count is at most the total. *)
Lemma totalVotes_bounds (vs : gmap string number) :
  (∀ s n, vs !! s = Some n → ∃ z, n = Int z ∧ 0 ≤ z) →
  ∃ t, totalVotes vs = Int t ∧ 0 ≤ t ∧
       (∀ s z, vs !! s = Some (Int z) → z ≤ t).
Proof.
  induction vs as [|k n vs Hk IH] using map_ind; intros Hall.
  - exists 0. rewrite totalVotes_empty. split_and!; [done|lia|].
    intros s z. by rewrite lookup_empty.
  - destruct IH as (t & Ht & Hpos & Hle).
    { intros s n' Hs. apply (Hall s). rewrite lookup_insert_ne; [done|].
      intros ->. congruence. }
    destruct (Hall k n) as (z & -> & Hz); [by rewrite lookup_insert_eq|].
    exists (t + z). rewrite totalVotes_insert, Ht by done.
    split_and!; [done|lia|].
    intros s z'. rewrite lookup_insert. case_decide.
    + intros [= ->]. lia.
    + intros Hs. specialize (Hle _ _ Hs). lia.
Qed.

(** X21. In an election that a run has produced no candidate has more
    votes than there are voters who have voted, and these are never more
    than the registered voters. *)
Theorem counts_bounded (st : election) (s : string) (n : number) :
  reachable st →
  votes st !! s = Some n →
  ∃ z, n = Int z
       ∧ 0 ≤ z ≤ Z.of_nat (size (votedVoters st))
       ∧ (size (votedVoters st) ≤ size (registeredVoters st))%nat.
Proof.
  intros Hinv%reachable_inv Hs.
  destruct (inv_counts _ Hinv _ _ Hs) as (z & -> & Hz).
  destruct (totalVotes_bounds (votes st)) as (t & Ht & _ & Hle);
    [apply Hinv|].
  rewrite (inv_total _ Hinv) in Ht. injection Ht as <-.
  exists z. split_and!; [done|lia|exact (Hle _ _ Hs)|].
  apply subseteq_size, (inv_voted _ Hinv).
Qed.
End MethodFacts.

(** ** Results, totals and the winner *)

Section ResultFacts.
Context `{Host}.



(** What [getResults] returns for any [sortFn]: the new array holds the
    references to the new entries, sorted by the comparator the source
    selects. *)
Lemma getResults_run (h : heap) (st : election) (sortFn : value) :
  election_inv st →
  Forall (candidate_record h) (candidateMap st).*2 →
  let entries := entry_of h (votes st) <$> candidateMap st in
  let refs := new_refs (S (length h)) (length (candidateMap st)) in
  let h1 := h ++ Arr refs :: entries in
  let cmp :=
    if truthy sortFn && String.eqb (typeof sortFn) "function"
    then λ a b, ToNumber h1 (Call sortFn h1 [a; b])
    else by_votes_descending h1 in
  getResults h st sortFn
  = Ok (h ++ Arr (Array_sort cmp refs) :: entries, VRef (length h)).
Proof.
  intros Hinv Hcands. cbv zeta.
  assert (Hok : Forall (λ e, (∃ s, e.1 = VStr s)
                             ∧ ∃ l, e.2 = VRef l ∧ (l < length h)%nat)
                       (candidateMap st)).
  { apply Forall_forall. intros [id c] Hin. split; simpl.
    - apply (inv_keys _ Hinv). apply list_elem_of_fmap. by exists (id, c).
    - rewrite Forall_forall in Hcands.
      destruct (Hcands c) as (l & o & -> & Ho & _).
      { apply list_elem_of_fmap. by exists (id, c). }
      exists l. split; [done|]. by eapply lookup_lt_Some. }
  pose proof (getResults_loop_spec h (votes st) (candidateMap st) [] [] Hok) as Hloop.
  cbn [app length] in Hloop. rewrite Nat.add_0_r in Hloop.
  unfold getResults. rewrite Hloop. cbn [mbind result_bind].
  by rewrite sort_in_place_fresh.
Qed.














(** X19. A comparator that the host evaluates, on the new entries, as the
    difference [key b - key a] of an integer key makes [getResults] return
    the entries by descending [key], entries of equal key in iteration
    order; with [key] the negated [votes] this is the ascending order of
    [(a, b) => a.votes - b.votes]. *)
Theorem getResults_comparator (h : heap) (st : election) (sortFn : value)
    (key : value → Z) :
  reachable st →
  Forall (candidate_record h) (candidateMap st).*2 →
  typeof sortFn = "function" →
  (∀ a b,
     a ∈ new_refs (S (length h)) (length (candidateMap st)) →
     b ∈ new_refs (S (length h)) (length (candidateMap st)) →
     ToNumber
       (h ++ Arr (new_refs (S (length h)) (length (candidateMap st)))
          :: (entry_of h (votes st) <$> candidateMap st))
       (Call sortFn
          (h ++ Arr (new_refs (S (length h)) (length (candidateMap st)))
             :: (entry_of h (votes st) <$> candidateMap st))
          [a; b])
     = Int (key b - key a)) →
  ∃ order,
    getResults h st sortFn
    = Ok (h ++ Arr order :: (entry_of h (votes st) <$> candidateMap st),
          VRef (length h))
    ∧ order ≡ₚ new_refs (S (length h)) (length (candidateMap st))
    ∧ StronglySorted (λ a b, key b ≤ key a) order
    ∧ (∀ z, filter (λ r, key r = z) order
            = filter (λ r, key r = z)
                (new_refs (S (length h)) (length (candidateMap st)))).
Proof.
  intros Hinv%reachable_inv Hcands Hfun Hcmp.
  assert (Hbranch : truthy sortFn && String.eqb (typeof sortFn) "function" = true).
  { rewrite Hfun. by destruct sortFn as [[]| |]. }
  pose proof (getResults_run h st sortFn Hinv Hcands) as Hrun.
  cbv zeta in Hrun. rewrite Hbranch in Hrun.
  rewrite (Array_sort_desc _ key) in Hrun.
  - eexists. split; [exact Hrun|].
    split_and!; [apply sort_desc_perm|apply sort_desc_sorted|].
    intros z. apply sort_desc_stable.
  - intros x y Hx Hy. unfold stays_before, SortCompare.
    apply elem_of_new_refs in Hx as Hx'. destruct Hx' as (i & -> & _).
    apply elem_of_new_refs in Hy as Hy'. destruct Hy' as (j & -> & _).
    rewrite (Hcmp _ _ Hx Hy). simpl.
    destruct (Z.ltb_spec 0 (key (VRef (S (length h + j)))
                            - key (VRef (S (length h + i))))),
      (Z.leb_spec (key (VRef (S (length h + j)))) (key (VRef (S (length h + i)))));
      simpl; lia.
Qed.
End ResultFacts.

(** ** The validator, once more *)

Section ValidatorMore.
Context `{Host}.


(** X14. Whenever the validator returns, the heap has grown by exactly one
    object [{valid, reason}], which the result refers to, and [reason] is
    the empty string exactly when [valid] is [true]. *)
Theorem createVoteValidator_verdict (h h' : heap) (rules voter v : value) :
  createVoteValidator rules h voter = Ok (h', v) →
  ∃ valid reason,
    h' = h ++ [verdict valid reason]
    ∧ v = VRef (length h)
    ∧ (valid = true ↔ reason = "").
Proof.
  unfold createVoteValidator, alloc.
  destruct (_ || _); simpl.
  { intros [= <- <-]. by exists false, "Invalid voter object". }
  destruct (get h rules "requiredFields") as [rf|]; simpl; [|done].
  destruct (if truthy rf then _ else _) as [[field|]|]; simpl; [| |done].
  { intros [= <- <-]. by eexists false, _. }
  destruct (get h rules "minAge") as [minAge|]; simpl; [|done].
  destruct (_ && _).
  - intros [= <- <-]. by eexists false, _.
  - intros [= <- <-]. by exists true, "".
Qed.


End ValidatorMore.

(** ** Tallies and regions, once more *)

Section TallyMore.
Context `{Host}.







End TallyMore.

(** * The statements on closed examples *)

Lemma village_ids : Forall (has_string_id village) village_candidates.
Proof. repeat constructor; eexists; reflexivity. Qed.

Lemma village_created :
  createElection (H := plain_host) village village_candidates = Ok village_election.
Proof. vm_compute. reflexivity. Qed.

Lemma village_reachable (calls : list (heap * call)) :
  reachable (H := plain_host) (run (H := plain_host) village_election calls).
Proof.
  apply reachable_run.
  exact (reachable_create village village_candidates _ village_ids village_created).
Qed.

(** The example of the source: Mohan registers and votes for the first
    candidate, who then leads the results and wins. *)
Example village_story :
  let '(st1, registered) :=
    registerVoter (H := plain_host) village village_election (VRef 2%nat) in
  let '(h2, st2, outcome) :=
    castVote (H := plain_host) village st1 (VStr "V1") (VStr "C1") (VFun 0) (VFun 1) in
  registered = true
  ∧ outcome = ReturnCall (VFun 0) [VRef 4%nat]
  ∧ h2 !! 4%nat = Some (Obj {[ "voterId" := VStr "V1"; "candidateId" := VStr "C1" ]})
  ∧ getResults (H := plain_host) village st2 VUndefined
    = Ok (village
            ++ [ Arr [VRef 5%nat; VRef 6%nat];
                 Obj {[ "id" := VStr "C1"; "name" := VStr "Sarpanch Ram";
                        "party" := VStr "Janata"; "votes" := VInt 1 ]};
                 Obj {[ "id" := VStr "C2"; "name" := VStr "Pradhan Sita";
                        "party" := VStr "Lok"; "votes" := VInt 0 ]} ],
          VRef 4%nat)
  ∧ getWinner (H := plain_host) village st2 = VRef 0%nat.
Proof. vm_compute. by split_and!. Qed.


(** Closed membership and non-membership facts, by evaluation. *)
Ltac by_evaluation := apply (bool_decide_unpack _); vm_compute; exact I.

(** The election after Mohan has registered, and after he has voted. *)
Lemma mohan_registered :
  VStr "V1" ∈ registeredVoters
                (run (H := plain_host) village_election (take 1 village_calls)).
Proof. by_evaluation. Qed.

Lemma mohan_not_voted :
  VStr "V1" ∉ votedVoters
                (run (H := plain_host) village_election (take 1 village_calls)).
Proof. by_evaluation. Qed.

Lemma castVote_failures_witness :
  castVote (H := plain_host) village village_election
    (VStr "V1") (VStr "C1") VNull (VFun 1)
  = (village, village_election, Return VNull)
  ∧ castVote (H := plain_host) village village_election
      (VStr "V1") (VStr "C9") (VFun 0) (VFun 1)
    = (village, village_election, ReturnCall (VFun 1) [VStr "Voter not registered"])
  ∧ castVote (H := plain_host) village
      (run (H := plain_host) village_election village_calls)
      (VStr "V1") (VStr "C9") (VFun 0) (VFun 1)
    = (village, run (H := plain_host) village_election village_calls,
       ReturnCall (VFun 1) [VStr "Voter already voted"])
  ∧ castVote (H := plain_host) village
      (run (H := plain_host) village_election (take 1 village_calls))
      (VStr "V1") (VStr "C9") (VFun 0) (VFun 1)
    = (village, run (H := plain_host) village_election (take 1 village_calls),
       ReturnCall (VFun 1) [VStr "Invalid candidate"]).
Proof.
  split_and!.
  - apply (castVote_failures (H := plain_host)). left. discriminate.
  - apply (castVote_failures (H := plain_host)); [reflexivity..|by_evaluation].
  - apply (castVote_failures (H := plain_host)); [reflexivity..| |]; by_evaluation.
  - apply (castVote_failures (H := plain_host));
      [reflexivity..|exact mohan_registered|exact mohan_not_voted|by_evaluation].
Defined.


Lemma registerVoter_spec_witness :
  registerVoter (H := plain_host) village village_election (VRef 3%nat)
  = (village_election, false)
  ∧ registerVoter (H := plain_host) village village_election (VRef 2%nat)
    = (with_registered village_election (VStr "V1"), true).
Proof.
  split.
  - apply (registerVoter_spec (H := plain_host)).
    do 4 right. left. exists 12. split; [reflexivity|lia].
  - apply (registerVoter_spec (H := plain_host) village village_election (VRef 2%nat)).
    intros [Hf|[Hf|[Hf|[Hf|[(age & Hage & Hlt)|Hin]]]]];
      try discriminate Hf.
    + by apply Hf.
    + vm_compute in Hage. injection Hage as <-. lia.
    + revert Hin. by_evaluation.
Defined.


Lemma village_records :
  Forall (candidate_record village)
         (candidateMap (run (H := plain_host) village_election village_calls)).*2.
Proof.
  repeat constructor.
  - exists 0%nat, (candidate "C1" "Sarpanch Ram" "Janata").
    split_and!; [reflexivity..|eexists; reflexivity|eexists; reflexivity
                |eexists; reflexivity].
  - exists 1%nat, (candidate "C2" "Pradhan Sita" "Lok").
    split_and!; [reflexivity..|eexists; reflexivity|eexists; reflexivity
                |eexists; reflexivity].
Qed.








(** ** The further properties on closed examples *)


Lemma createElection_duplicates_witness :
  NoDup [VStr "C1"]
  ∧ ∀ id c,
      (id, c) ∈ [(VStr "C1", VRef 1%nat)]
      ↔ ∃ before after,
          [VRef 0%nat; VRef 1%nat] = before ++ c :: after
          ∧ read twins c "id" = id
          ∧ ∀ c', c' ∈ after → read twins c' "id" ≠ id.
Proof.
  apply (createElection_duplicates (H := plain_host) twins [VRef 0%nat; VRef 1%nat]
           {| votes := {[ "C1" := Int 0 ]}; registeredVoters := ∅;
              votedVoters := ∅; candidateMap := [(VStr "C1", VRef 1%nat)] |}).
  vm_compute. reflexivity.
Defined.

Lemma createElection_fresh_witness :
  (∀ s n, votes village_election !! s = Some n → n = Int 0)
  ∧ registeredVoters village_election = ∅
  ∧ votedVoters village_election = ∅
  ∧ getWinner (H := plain_host) village village_election = VNull.
Proof.
  exact (createElection_fresh (H := plain_host) village village
           village_candidates village_election village_created).
Defined.

Lemma registerVoter_again_witness :
  registerVoter (H := plain_host) village
    (with_registered village_election (VStr "V1")) (VRef 2%nat)
  = (with_registered village_election (VStr "V1"), false).
Proof.
  apply (registerVoter_again (H := plain_host) village village village_election
           (with_registered village_election (VStr "V1")) (VRef 2%nat) (VRef 2%nat));
    reflexivity.
Defined.

Lemma run_count_witness :
  ∃ z', votes (run (H := plain_host) village_election village_calls) !! "C2"
        = Some (Int z')
        ∧ 0 ≤ z' ≤ 0 + Z.of_nat (length village_calls).
Proof.
  apply (run_count (H := plain_host) village_election village_calls "C2" 0);
    [exact (village_reachable [])|reflexivity].
Defined.

Lemma castVote_again_witness :
  castVote (H := plain_host) village
    (castVote (H := plain_host) village
       (run (H := plain_host) village_election (take 1 village_calls))
       (VStr "V1") (VStr "C2") (VFun 0) (VFun 1)).1.2
    (VStr "V1") (VStr "C1") (VFun 2) (VFun 3)
  = (village,
     (castVote (H := plain_host) village
        (run (H := plain_host) village_election (take 1 village_calls))
        (VStr "V1") (VStr "C2") (VFun 0) (VFun 1)).1.2,
     ReturnCall (VFun 3) [VStr "Voter already voted"]).
Proof.
  apply (castVote_again (H := plain_host));
    [reflexivity|reflexivity|exact mohan_registered|exact mohan_not_voted
    |by_evaluation|reflexivity|reflexivity].
Defined.

Lemma castVote_no_conversion_witness :
  castVote (H := plain_host) village
    (run (H := plain_host) village_election (take 1 village_calls))
    (VStr "V1") (VInt 1) (VFun 0) (VFun 1)
  = (village, run (H := plain_host) village_election (take 1 village_calls),
     ReturnCall (VFun 1) [VStr "Invalid candidate"]).
Proof.
  apply (castVote_no_conversion (H := plain_host));
    [apply village_reachable|reflexivity|reflexivity|exact mohan_registered
    |exact mohan_not_voted|discriminate].
Defined.

Lemma election_without_candidates_witness :
  votedVoters (run (H := plain_host) (fresh_election ∅ []) village_calls) = ∅
  ∧ getWinner (H := plain_host) village
      (run (H := plain_host) (fresh_election ∅ []) village_calls) = VNull
  ∧ (∀ sortFn,
       getResults (H := plain_host) village
         (run (H := plain_host) (fresh_election ∅ []) village_calls) sortFn
       = Ok (village ++ [Arr []], VRef (length village)))
  ∧ (∀ voterId candidateId onSuccess onError,
       typeof onSuccess = "function" → typeof onError = "function" →
       ∃ reason,
         castVote (H := plain_host) village
           (run (H := plain_host) (fresh_election ∅ []) village_calls)
           voterId candidateId onSuccess onError
         = (village, run (H := plain_host) (fresh_election ∅ []) village_calls,
            ReturnCall onError [VStr reason])).
Proof.
  apply (election_without_candidates (H := plain_host) village village
           (fresh_election ∅ []) village_calls).
  reflexivity.
Defined.





Lemma createVoteValidator_verdict_witness :
  ∃ valid reason,
    office ++ [verdict false "Missing field: name"]
    = office ++ [verdict valid reason]
    ∧ VRef 5%nat = VRef (length office)
    ∧ (valid = true ↔ reason = "").
Proof.
  apply (createVoteValidator_verdict (H := plain_host) office _ (VRef 0%nat)
           (VRef 2%nat)).
  vm_compute. reflexivity.
Defined.






Lemma village_reachable_any `{Host} (calls : list (heap * call)) :
  reachable (run village_election calls).
Proof.
  apply reachable_run.
  apply (reachable_create village village_candidates _ village_ids).
  vm_compute. reflexivity.
Qed.

Lemma getResults_comparator_witness :
  ∃ order,
    getResults (H := ascending_host) village
      (run (H := ascending_host) village_election village_calls) (VFun 0)
    = Ok (village ++ Arr order
            :: (entry_of (H := ascending_host) village
                  (votes (run (H := ascending_host) village_election village_calls))
                <$> candidateMap
                      (run (H := ascending_host) village_election village_calls)),
          VRef (length village))
    ∧ order ≡ₚ new_refs (S (length village))
                 (length (candidateMap
                            (run (H := ascending_host) village_election village_calls)))
    ∧ StronglySorted (λ a b, ascending_key b ≤ ascending_key a) order
    ∧ (∀ z, filter (λ r, ascending_key r = z) order
            = filter (λ r, ascending_key r = z)
                (new_refs (S (length village))
                   (length (candidateMap
                              (run (H := ascending_host) village_election
                                 village_calls))))).
Proof.
  apply (getResults_comparator (H := ascending_host));
    [apply village_reachable_any|exact village_records|reflexivity|].
  intros a b Ha Hb.
  apply elem_of_new_refs in Ha as (i & -> & Hi).
  apply elem_of_new_refs in Hb as (j & -> & Hj).
  change (length (candidateMap
                    (run (H := ascending_host) village_election village_calls)))
    with 2%nat in Hi, Hj.
  destruct i as [|[|i]]; [| |lia]; (destruct j as [|[|j]]; [| |lia]);
    vm_compute; reflexivity.
Defined.

Lemma registered_then_vote_witness :
  (castVote (H := plain_host) village
     (with_registered village_election (VStr "V1"))
     (read village (VRef 2%nat) "id") (VStr "C1") (VFun 0) (VFun 1)).2
  = ReturnCall (VFun 0) [VRef (length village)]
  ∧ (castVote (H := plain_host) village
       (with_registered village_election (VStr "V1"))
       (read village (VRef 2%nat) "id") (VStr "C1") (VFun 0) (VFun 1)).1.1
    = village ++ [Obj {[ "voterId" := read village (VRef 2%nat) "id";
                         "candidateId" := VStr "C1" ]}].
Proof.
  apply (registered_then_vote (H := plain_host) village village village_election
           (with_registered village_election (VStr "V1")) (VRef 2%nat));
    [exact (village_reachable [])|reflexivity|reflexivity|reflexivity|by_evaluation].
Defined.

Lemma counts_bounded_witness :
  ∃ z, Int 1 = Int z
       ∧ 0 ≤ z ≤ Z.of_nat (size (votedVoters
                                   (run (H := plain_host) village_election village_calls)))
       ∧ (size (votedVoters (run (H := plain_host) village_election village_calls))
          ≤ size (registeredVoters
                    (run (H := plain_host) village_election village_calls)))%nat.
Proof.
  apply (counts_bounded (H := plain_host)
           (run (H := plain_host) village_election village_calls) "C2" (Int 1));
    [apply village_reachable|reflexivity].
Defined.

